(** * Turn orchestration of the voice Game Master (backend/src/agent.py)

    A shallow embedding of [PlayerMemory] and of the [VoiceGM] methods
    [run], [scene_1] .. [scene_4], [generic_scene] and [final_scene].

    Conventions of the embedding:
    - Python [int] is unbounded, so [turn], [max_turns] and [health] are [Z];
    - Python [str] is a [string]; one character of the model stands for one
      character of the Python string, [s[:80]] is [substring 0 80 s] and
      [list.append] adds at the end of a [list];
    - the methods mutate [self]; they are written in a small state monad
      [GM] over the agent [VoiceGM];
    - [logger.info] only writes to the log and is left out. *)

From Stdlib Require Import ZArith List String Ascii Bool Lia RelationClasses.
Import ListNotations.

Local Open Scope string_scope.
Local Open Scope Z_scope.

(** ** Data model *)

(** [PlayerMemory] (agent.py, lines 42-49). *)
Record PlayerMemory : Type := mkPlayerMemory {
  name : string;
  health : Z;
  inventory : list string;
  allies : list string;
  visited_places : list string;
  past_actions : list string
}.

(** The dataclass defaults: [PlayerMemory(name=n)]. *)
Definition PlayerMemory_new (n : string) : PlayerMemory :=
  {| name := n; health := 100; inventory := []; allies := [];
     visited_places := []; past_actions := [] |}.

(** The attributes [run] and the scenes use of a [VoiceGM] instance. *)
Record VoiceGM : Type := mkVoiceGM {
  memory : PlayerMemory;
  turn : Z;
  max_turns : Z
}.

(** [VoiceGM.__init__] (lines 67-69). *)
Definition VoiceGM_init : VoiceGM :=
  {| memory := PlayerMemory_new "Arin"; turn := 0; max_turns := 10 |}.

(** What [run] reads of its [RunContext]: the chat messages and their text. *)
Record ChatMessage : Type := mkChatMessage { content : string }.
Record RunContext : Type := mkRunContext { messages : list ChatMessage }.

(** ** Field updates *)

Definition set_health (h : Z) (m : PlayerMemory) : PlayerMemory :=
  {| name := name m; health := h; inventory := inventory m;
     allies := allies m; visited_places := visited_places m;
     past_actions := past_actions m |}.

Definition set_inventory (l : list string) (m : PlayerMemory) : PlayerMemory :=
  {| name := name m; health := health m; inventory := l;
     allies := allies m; visited_places := visited_places m;
     past_actions := past_actions m |}.

Definition set_allies (l : list string) (m : PlayerMemory) : PlayerMemory :=
  {| name := name m; health := health m; inventory := inventory m;
     allies := l; visited_places := visited_places m;
     past_actions := past_actions m |}.

Definition set_visited_places (l : list string) (m : PlayerMemory) : PlayerMemory :=
  {| name := name m; health := health m; inventory := inventory m;
     allies := allies m; visited_places := l;
     past_actions := past_actions m |}.

Definition set_past_actions (l : list string) (m : PlayerMemory) : PlayerMemory :=
  {| name := name m; health := health m; inventory := inventory m;
     allies := allies m; visited_places := visited_places m;
     past_actions := l |}.

Definition set_memory (m : PlayerMemory) (gm : VoiceGM) : VoiceGM :=
  {| memory := m; turn := turn gm; max_turns := max_turns gm |}.

Definition set_turn (t : Z) (gm : VoiceGM) : VoiceGM :=
  {| memory := memory gm; turn := t; max_turns := max_turns gm |}.

(** ** The state monad of the agent's methods *)

Definition GM (A : Type) : Type := VoiceGM -> A * VoiceGM.

Definition ret {A : Type} (a : A) : GM A := fun gm => (a, gm).

Definition bind {A B : Type} (c : GM A) (k : A -> GM B) : GM B :=
  fun gm => let (a, gm') := c gm in k a gm'.

Definition gets {A : Type} (f : VoiceGM -> A) : GM A := fun gm => (f gm, gm).

Definition modify (f : VoiceGM -> VoiceGM) : GM unit := fun gm => (tt, f gm).

(** [self.memory.<field> = ...] *)
Definition update_memory (f : PlayerMemory -> PlayerMemory) : GM unit :=
  modify (fun gm => set_memory (f (memory gm)) gm).

Declare Scope gm_scope.
Delimit Scope gm_scope with gm.
Notation "x <- c ;; k" := (bind c (fun x => k))
  (at level 61, c at next level, right associativity) : gm_scope.
Notation "c ;; k" := (bind c (fun _ => k))
  (at level 61, right associativity) : gm_scope.
Local Open Scope gm_scope.

(** ** Strings *)

(** Truth value of a [str]: true when it is not empty. *)
Definition truthy (s : string) : bool :=
  match s with
  | EmptyString => false
  | String _ _ => true
  end.

(** [s.endswith(suffix)]. *)
Definition endswith (s suffix : string) : bool :=
  (String.length suffix <=? String.length s)%nat &&
  (substring (String.length s - String.length suffix) (String.length suffix) s
   =? suffix)%string.

(** ** Scenes (lines 97-118) *)

Definition scene_1 : GM string :=
  update_memory (fun m => set_visited_places (visited_places m ++ ["Tavern"])%list m) ;;
  ret "You are in a quiet tavern near a dark forest. The fire is low. A small gnome says someone stole a map. What do you do?".

Definition scene_2 (action : string) : GM string :=
  update_memory (fun m => set_allies (allies m ++ ["Fenrix"])%list m) ;;
  ret "A hooded ranger named Fenrix stands up. He offers to help you find the map. What do you do?".

Definition scene_3 (action : string) : GM string :=
  update_memory (fun m => set_visited_places (visited_places m ++ ["Forest"])%list m) ;;
  update_memory (fun m => set_inventory (inventory m ++ ["Map Scrap"])%list m) ;;
  ret "You walk into the forest. You find a small piece of paper with a star mark on it. It might be part of the map. What do you do?".

Definition scene_4 (action : string) : GM string :=
  update_memory (fun m => set_health (health m - 10) m) ;;
  ret "You hear wolves. One jumps out and scares you. You lose a little health. Fenrix draws his bow to protect you. What do you do?".

Definition generic_scene (action : string) : GM string :=
  ret ("The world reacts to your action: " ++ action
       ++ ". You see the path ahead glowing with stars. What do you do?").

Definition final_scene : GM string :=
  ret "You reach a stone door with a glowing star mark. Fenrix nods at you. The door opens slowly. A new quest begins. What do you do?".

(** ** The turn (lines 71-93) *)

(** [ctx.messages[-1].content if ctx.messages else ""] *)
Definition player_input (ctx : RunContext) : string :=
  last (map content (messages ctx)) "".

Definition run (ctx : RunContext) : GM string :=
  let player_input := player_input ctx in
  modify (fun gm => set_turn (turn gm + 1) gm) ;;
  (if truthy player_input
   then update_memory (fun m =>
          set_past_actions (past_actions m ++ [substring 0 80 player_input])%list m)
   else ret tt) ;;
  t <- gets turn ;;
  cap <- gets max_turns ;;
  scene <- (if t =? 1 then scene_1
            else if t =? 2 then scene_2 player_input
            else if t =? 3 then scene_3 player_input
            else if t =? 4 then scene_4 player_input
            else if t >=? cap then final_scene
            else generic_scene player_input) ;;
  ret scene.

(** ** Steps

    The specification names the branches of [run]'s conditional. [TurnSelector]
    is that conditional, returning the name of the branch taken, and
    [SceneCatalog] is the method each branch calls; [run_dispatch] below shows
    that [run] is their composition. *)

Inductive Step : Type :=
| OpeningScene
| AllyIntroduction
| ForestDiscovery
| WolfEncounter
| GenericReaction
| FinalScene.

Definition TurnSelector (t cap : Z) : Step :=
  if t =? 1 then OpeningScene
  else if t =? 2 then AllyIntroduction
  else if t =? 3 then ForestDiscovery
  else if t =? 4 then WolfEncounter
  else if t >=? cap then FinalScene
  else GenericReaction.

Definition SceneCatalog (s : Step) (action : string) : GM string :=
  match s with
  | OpeningScene => scene_1
  | AllyIntroduction => scene_2 action
  | ForestDiscovery => scene_3 action
  | WolfEncounter => scene_4 action
  | GenericReaction => generic_scene action
  | FinalScene => final_scene
  end.

(** The first two statements of [run]: the counter and the action log. *)
Definition begin_turn (ctx : RunContext) (gm : VoiceGM) : VoiceGM :=
  let gm1 := set_turn (turn gm + 1) gm in
  if truthy (player_input ctx)
  then set_memory
         (set_past_actions
            (past_actions (memory gm1) ++ [substring 0 80 (player_input ctx)])%list
            (memory gm1)) gm1
  else gm1.

(** The step [run] takes from a state. *)
Definition selected_step (gm : VoiceGM) : Step :=
  TurnSelector (turn gm + 1) (max_turns gm).

(** ** Sessions *)

(** The agent after a sequence of calls to [run], first call first. *)
Definition run_all (ctxs : list RunContext) (gm : VoiceGM) : VoiceGM :=
  fold_left (fun g ctx => snd (run ctx g)) ctxs gm.

(** A session of the source: a fresh agent, then the calls. *)
Definition session (ctxs : list RunContext) : VoiceGM :=
  run_all ctxs VoiceGM_init.

(** A call with the chat history [ [u] ]: the player said [u]. *)
Definition says (u : string) : RunContext :=
  {| messages := [ {| content := u |} ] |}.

(** A call with no message at all. *)
Definition silence : RunContext := {| messages := [] |}.

(** A fresh agent whose [max_turns] attribute was then set to [cap]. *)
Definition reconfigured (cap : Z) : VoiceGM :=
  {| memory := memory VoiceGM_init; turn := turn VoiceGM_init; max_turns := cap |}.

(** [l'] is [l] with entries added at the end: nothing removed or moved. *)
Definition extends {A : Type} (l l' : list A) : Prop :=
  exists added, l' = (l ++ added)%list.

(** The memory a scripted session holds after [n] calls. *)
Definition visited_after (n : Z) : list string :=
  if n <? 1 then [] else if n <? 3 then ["Tavern"] else ["Tavern"; "Forest"].

Definition inventory_after (n : Z) : list string :=
  if n <? 3 then [] else ["Map Scrap"].

Definition allies_after (n : Z) : list string :=
  if n <? 2 then [] else ["Fenrix"].

Definition health_after (n : Z) : Z :=
  if n <? 4 then 100 else 90.

(** The entries a sequence of calls adds to [past_actions]: the first 80
    characters of each player input that is not empty, in the order of the
    calls. *)
Definition logged (ctxs : list RunContext) : list string :=
  map (substring 0 80) (filter truthy (map player_input ctxs)).

(** ** Three sentences of the specification, as written

    The narration invariant with its exception for the final scene, the
    precedence of the session cap over the numbered slots, and the saturation
    at the final scene once the counter has reached the cap. *)

Definition narration_invariant_as_stated (ctx : RunContext) (gm : VoiceGM) : Prop :=
  match selected_step gm with
  | FinalScene => endswith (fst (run ctx gm)) "What do you do?" = false
  | _ => endswith (fst (run ctx gm)) "What do you do?" = true
  end.

Definition cap_precedence_as_stated (gm : VoiceGM) : Prop :=
  max_turns gm <= turn gm + 1 -> selected_step gm = FinalScene.

(** A call made when the counter has already reached the cap. *)
Definition saturation_as_stated (ctx : RunContext) (gm : VoiceGM) : Prop :=
  max_turns gm <= turn gm ->
  fst (run ctx gm) = fst (final_scene gm) /\
  memory (snd (run ctx gm)) = memory (begin_turn ctx gm).

(** ** Strings: slices and suffixes *)

Section StringFacts.

Local Open Scope nat_scope.

Lemma string_app_assoc (a b c : string) :
  ((a ++ b) ++ c = a ++ (b ++ c))%string.
Proof.
  induction a as [|ch a IH]; simpl; [reflexivity | now rewrite IH].
Qed.

Lemma string_app_length (a b : string) :
  String.length (a ++ b) = String.length a + String.length b.
Proof.
  induction a as [|ch a IH]; simpl; [reflexivity | now rewrite IH].
Qed.

Lemma substring_whole (s : string) : substring 0 (String.length s) s = s.
Proof.
  induction s as [|ch s IH]; simpl; [reflexivity | now rewrite IH].
Qed.

Lemma substring_skip (p s : string) (m : nat) :
  substring (String.length p) m (p ++ s) = substring 0 m s.
Proof.
  induction p as [|ch p IH]; simpl; [reflexivity | exact IH].
Qed.

(** A slice [s[:n]] and the rest [s[n:]] make up [s]. *)
Lemma substring_split (n : nat) (s : string) :
  n <= String.length s ->
  s = (substring 0 n s ++ substring n (String.length s - n) s)%string.
Proof.
  revert n; induction s as [|ch s IH]; intros n Hn; simpl in *.
  - destruct n; [reflexivity | lia].
  - destruct n as [|n]; simpl.
    + now rewrite substring_whole.
    + f_equal. apply IH. lia.
Qed.

(** [s[:n]] has at most [n] characters, and all of [s] when [s] is short. *)
Lemma substring_prefix_length (n : nat) (s : string) :
  String.length (substring 0 n s) = Nat.min n (String.length s).
Proof.
  revert n; induction s as [|ch s IH]; intros [|n]; simpl; auto.
Qed.

(** [s[:n]] is an initial segment of [s]. *)
Lemma substring_prefix_of (n : nat) (s : string) :
  exists rest, s = (substring 0 n s ++ rest)%string.
Proof.
  revert n; induction s as [|ch s IH]; intros [|n]; simpl.
  - now exists ""%string.
  - now exists ""%string.
  - now exists (String ch s).
  - destruct (IH n) as [rest Hrest]. exists rest. now rewrite <- Hrest.
Qed.

Lemma substring_short (n : nat) (s : string) :
  String.length s <= n -> substring 0 n s = s.
Proof.
  revert n; induction s as [|ch s IH]; intros [|n] Hn; simpl in *;
    try reflexivity; try lia.
  f_equal. apply IH. lia.
Qed.

Lemma endswith_append (p suffix : string) :
  endswith (p ++ suffix) suffix = true.
Proof.
  unfold endswith. rewrite string_app_length.
  apply andb_true_intro; split.
  - apply Nat.leb_le. lia.
  - replace (String.length p + String.length suffix - String.length suffix)
      with (String.length p) by lia.
    rewrite substring_skip, substring_whole. apply String.eqb_refl.
Qed.

(** [endswith] decides "[s] is some text followed by [suffix]". *)
Lemma endswith_spec (s suffix : string) :
  endswith s suffix = true <-> exists p, s = (p ++ suffix)%string.
Proof.
  split.
  - unfold endswith. intros H. apply andb_prop in H as [Hlen Heq].
    apply Nat.leb_le in Hlen. apply String.eqb_eq in Heq.
    set (k := String.length s - String.length suffix) in *.
    exists (substring 0 k s).
    assert (Hs : s = (substring 0 k s ++ substring k (String.length s - k) s)%string)
      by (apply substring_split; lia).
    replace (String.length s - k) with (String.length suffix) in Hs by lia.
    now rewrite Heq in Hs.
  - intros [p ->]. apply endswith_append.
Qed.

Lemma truthy_spec (s : string) : truthy s = false <-> s = ""%string.
Proof. destruct s; simpl; split; congruence. Qed.

End StringFacts.

(** ** One call to [run] *)

(** [run] is the turn bookkeeping followed by the selected scene. *)
Lemma run_dispatch (ctx : RunContext) (gm : VoiceGM) :
  run ctx gm
  = SceneCatalog (selected_step gm) (player_input ctx) (begin_turn ctx gm).
Proof.
  unfold run, selected_step, TurnSelector, begin_turn, bind, gets,
    update_memory, modify, ret.
  destruct (truthy (player_input ctx)); cbn [turn max_turns set_turn set_memory];
    repeat (match goal with |- context [if ?b then _ else _] =>
              destruct b end; cbn [SceneCatalog]);
    match goal with |- (let (_, _) := ?c in _) = _ => destruct c end;
    reflexivity.
Qed.

(** What [begin_turn] leaves alone. *)
Lemma begin_turn_turn ctx gm : turn (begin_turn ctx gm) = turn gm + 1.
Proof. unfold begin_turn. now destruct (truthy _). Qed.

Lemma begin_turn_max_turns ctx gm : max_turns (begin_turn ctx gm) = max_turns gm.
Proof. unfold begin_turn. now destruct (truthy _). Qed.

Lemma begin_turn_memory ctx gm :
  memory (begin_turn ctx gm)
  = if truthy (player_input ctx)
    then set_past_actions
           (past_actions (memory gm) ++ [substring 0 80 (player_input ctx)])%list
           (memory gm)
    else memory gm.
Proof. unfold begin_turn. now destruct (truthy _). Qed.

(** No scene touches the counter or the cap. *)
Lemma SceneCatalog_turn s action gm :
  turn (snd (SceneCatalog s action gm)) = turn gm.
Proof. now destruct s. Qed.

Lemma SceneCatalog_max_turns s action gm :
  max_turns (snd (SceneCatalog s action gm)) = max_turns gm.
Proof. now destruct s. Qed.

Lemma SceneCatalog_name s action gm :
  name (memory (snd (SceneCatalog s action gm))) = name (memory gm).
Proof. now destruct s. Qed.

Lemma SceneCatalog_past_actions s action gm :
  past_actions (memory (snd (SceneCatalog s action gm))) = past_actions (memory gm).
Proof. now destruct s. Qed.

(** The counter, the cap, the name and the log after one call. *)
Lemma run_turn ctx gm : turn (snd (run ctx gm)) = turn gm + 1.
Proof. now rewrite run_dispatch, SceneCatalog_turn, begin_turn_turn. Qed.

Lemma run_max_turns ctx gm : max_turns (snd (run ctx gm)) = max_turns gm.
Proof. now rewrite run_dispatch, SceneCatalog_max_turns, begin_turn_max_turns. Qed.

Lemma run_name ctx gm : name (memory (snd (run ctx gm))) = name (memory gm).
Proof.
  rewrite run_dispatch, SceneCatalog_name, begin_turn_memory.
  now destruct (truthy _).
Qed.

Lemma run_past_actions ctx gm :
  past_actions (memory (snd (run ctx gm)))
  = (past_actions (memory gm)
     ++ (if truthy (player_input ctx)
         then [substring 0 80 (player_input ctx)] else []))%list.
Proof.
  rewrite run_dispatch, SceneCatalog_past_actions, begin_turn_memory.
  destruct (truthy _); simpl; [reflexivity | now rewrite app_nil_r].
Qed.

(** The selected step, read off the new turn index. *)
Lemma TurnSelector_final (t cap : Z) :
  t < 1 \/ 4 < t -> cap <= t -> TurnSelector t cap = FinalScene.
Proof.
  intros Ht Hcap. unfold TurnSelector.
  destruct (Z.eqb_spec t 1); [lia|]. destruct (Z.eqb_spec t 2); [lia|].
  destruct (Z.eqb_spec t 3); [lia|]. destruct (Z.eqb_spec t 4); [lia|].
  destruct (Z.geb_spec t cap); [reflexivity | lia].
Qed.

Lemma TurnSelector_generic (t cap : Z) :
  t < 1 \/ 4 < t -> t < cap -> TurnSelector t cap = GenericReaction.
Proof.
  intros Ht Hcap. unfold TurnSelector.
  destruct (Z.eqb_spec t 1); [lia|]. destruct (Z.eqb_spec t 2); [lia|].
  destruct (Z.eqb_spec t 3); [lia|]. destruct (Z.eqb_spec t 4); [lia|].
  destruct (Z.geb_spec t cap); [lia | reflexivity].
Qed.

(** ** Sequences of calls *)

Lemma run_all_snoc ctxs ctx gm :
  run_all (ctxs ++ [ctx]) gm = snd (run ctx (run_all ctxs gm)).
Proof. unfold run_all. now rewrite fold_left_app. Qed.

Lemma run_all_turn ctxs gm :
  turn (run_all ctxs gm) = turn gm + Z.of_nat (List.length ctxs).
Proof.
  induction ctxs as [|ctx ctxs IH] using rev_ind.
  - simpl. lia.
  - rewrite run_all_snoc, run_turn, IH, length_app. simpl. lia.
Qed.

Lemma run_all_max_turns ctxs gm : max_turns (run_all ctxs gm) = max_turns gm.
Proof.
  induction ctxs as [|ctx ctxs IH] using rev_ind; [reflexivity|].
  now rewrite run_all_snoc, run_max_turns.
Qed.

Lemma run_all_name ctxs gm : name (memory (run_all ctxs gm)) = name (memory gm).
Proof.
  induction ctxs as [|ctx ctxs IH] using rev_ind; [reflexivity|].
  now rewrite run_all_snoc, run_name.
Qed.

#[local] Instance extends_refl {A : Type} : Reflexive (@extends A).
Proof. intros l. exists []. now rewrite app_nil_r. Qed.

#[local] Instance extends_trans {A : Type} : Transitive (@extends A).
Proof.
  intros l1 l2 l3 [a ->] [b ->]. exists (a ++ b)%list. now rewrite app_assoc.
Qed.

Lemma extends_snoc {A : Type} (l : list A) (x : A) : extends l (l ++ [x])%list.
Proof. now exists [x]. Qed.

Lemma extends_length {A : Type} (l l' : list A) :
  extends l l' -> (List.length l <= List.length l')%nat.
Proof. intros [a ->]. rewrite length_app. lia. Qed.

Create HintDb gm_frame.
#[local] Hint Resolve extends_snoc : gm_frame.
#[local] Hint Extern 1 (extends ?l ?l) => reflexivity : gm_frame.
#[local] Hint Extern 3 (extends ?l (_ ++ [_])%list) =>
  (etransitivity; [| apply extends_snoc]) : gm_frame.

(** Every scene only adds to the four sequences. *)
Lemma SceneCatalog_extends s action gm :
  extends (visited_places (memory gm))
          (visited_places (memory (snd (SceneCatalog s action gm)))) /\
  extends (inventory (memory gm))
          (inventory (memory (snd (SceneCatalog s action gm)))) /\
  extends (allies (memory gm))
          (allies (memory (snd (SceneCatalog s action gm)))) /\
  extends (past_actions (memory gm))
          (past_actions (memory (snd (SceneCatalog s action gm)))).
Proof. destruct s; cbn; auto 6 with gm_frame. Qed.

Lemma begin_turn_extends ctx gm :
  visited_places (memory (begin_turn ctx gm)) = visited_places (memory gm) /\
  inventory (memory (begin_turn ctx gm)) = inventory (memory gm) /\
  allies (memory (begin_turn ctx gm)) = allies (memory gm) /\
  extends (past_actions (memory gm)) (past_actions (memory (begin_turn ctx gm))).
Proof.
  rewrite begin_turn_memory. destruct (truthy _); cbn; auto 6 with gm_frame.
Qed.

Lemma run_extends ctx gm :
  extends (visited_places (memory gm)) (visited_places (memory (snd (run ctx gm)))) /\
  extends (inventory (memory gm)) (inventory (memory (snd (run ctx gm)))) /\
  extends (allies (memory gm)) (allies (memory (snd (run ctx gm)))) /\
  extends (past_actions (memory gm)) (past_actions (memory (snd (run ctx gm)))).
Proof.
  rewrite run_dispatch.
  destruct (SceneCatalog_extends (selected_step gm) (player_input ctx)
              (begin_turn ctx gm)) as (Hv & Hi & Ha & Hp).
  destruct (begin_turn_extends ctx gm) as (Ev & Ei & Ea & Ep).
  rewrite Ev in Hv. rewrite Ei in Hi. rewrite Ea in Ha.
  repeat split; try assumption. now transitivity (past_actions (memory (begin_turn ctx gm))).
Qed.

Lemma run_all_extends ctxs gm :
  extends (visited_places (memory gm)) (visited_places (memory (run_all ctxs gm))) /\
  extends (inventory (memory gm)) (inventory (memory (run_all ctxs gm))) /\
  extends (allies (memory gm)) (allies (memory (run_all ctxs gm))) /\
  extends (past_actions (memory gm)) (past_actions (memory (run_all ctxs gm))).
Proof.
  induction ctxs as [|ctx ctxs (Hv & Hi & Ha & Hp)] using rev_ind.
  - cbn. repeat split; reflexivity.
  - rewrite run_all_snoc.
    destruct (run_extends ctx (run_all ctxs gm)) as (Sv & Si & Sa & Sp).
    repeat split; etransitivity; eassumption.
Qed.

(** What each step does to the health and to the three world sequences. *)
Lemma SceneCatalog_world s action gm :
  let m := memory gm in
  let m' := memory (snd (SceneCatalog s action gm)) in
  health m' = (match s with WolfEncounter => health m - 10 | _ => health m end) /\
  visited_places m'
  = (match s with
     | OpeningScene => visited_places m ++ ["Tavern"]
     | ForestDiscovery => visited_places m ++ ["Forest"]
     | _ => visited_places m
     end)%list /\
  inventory m'
  = (match s with
     | ForestDiscovery => inventory m ++ ["Map Scrap"]
     | _ => inventory m
     end)%list /\
  allies m'
  = (match s with
     | AllyIntroduction => allies m ++ ["Fenrix"]
     | _ => allies m
     end)%list.
Proof. destruct s; cbn; auto. Qed.

Lemma begin_turn_health ctx gm :
  health (memory (begin_turn ctx gm)) = health (memory gm).
Proof. rewrite begin_turn_memory. now destruct (truthy _). Qed.

(** The world after one more call, from the step taken. *)
Lemma run_world ctx gm :
  let s := selected_step gm in
  let m := memory gm in
  let m' := memory (snd (run ctx gm)) in
  health m' = (match s with WolfEncounter => health m - 10 | _ => health m end) /\
  visited_places m'
  = (match s with
     | OpeningScene => visited_places m ++ ["Tavern"]
     | ForestDiscovery => visited_places m ++ ["Forest"]
     | _ => visited_places m
     end)%list /\
  inventory m'
  = (match s with
     | ForestDiscovery => inventory m ++ ["Map Scrap"]
     | _ => inventory m
     end)%list /\
  allies m'
  = (match s with
     | AllyIntroduction => allies m ++ ["Fenrix"]
     | _ => allies m
     end)%list.
Proof.
  cbv zeta. rewrite run_dispatch.
  destruct (SceneCatalog_world (selected_step gm) (player_input ctx)
              (begin_turn ctx gm)) as (Hh & Hv & Hi & Ha).
  destruct (begin_turn_extends ctx gm) as (Ev & Ei & Ea & _).
  rewrite Hh, Hv, Hi, Ha, Ev, Ei, Ea, begin_turn_health. auto.
Qed.

(** The step of the call that follows [n] calls, whatever the cap:
    a numbered scene on the first four, then a scene that changes nothing. *)
Lemma selected_step_cases (gm : VoiceGM) :
  (turn gm = 0 /\ selected_step gm = OpeningScene) \/
  (turn gm = 1 /\ selected_step gm = AllyIntroduction) \/
  (turn gm = 2 /\ selected_step gm = ForestDiscovery) \/
  (turn gm = 3 /\ selected_step gm = WolfEncounter) \/
  ((turn gm < 0 \/ 4 <= turn gm) /\
   (selected_step gm = FinalScene \/ selected_step gm = GenericReaction)).
Proof.
  unfold selected_step.
  assert (Hc : turn gm = 0 \/ turn gm = 1 \/ turn gm = 2 \/ turn gm = 3 \/
               (turn gm < 0 \/ 4 <= turn gm)) by lia.
  destruct Hc as [H | [H | [H | [H | H]]]]; try (rewrite H; cbn; tauto).
  do 4 right. split; [assumption|].
  destruct (Z.le_gt_cases (max_turns gm) (turn gm + 1)).
  - left. apply TurnSelector_final; lia.
  - right. apply TurnSelector_generic; lia.
Qed.

(** The memory of a scripted session is a function of the number of calls. *)
Lemma scripted_world (cap : Z) (ctxs : list RunContext) :
  let n := Z.of_nat (List.length ctxs) in
  let m := memory (run_all ctxs (reconfigured cap)) in
  health m = health_after n /\
  visited_places m = visited_after n /\
  inventory m = inventory_after n /\
  allies m = allies_after n.
Proof.
  cbv zeta. induction ctxs as [|ctx ctxs (Hh & Hv & Hi & Ha)] using rev_ind.
  - cbn. auto.
  - rewrite run_all_snoc, length_app, Nat2Z.inj_add. cbn [List.length Z.of_nat].
    set (g := run_all ctxs (reconfigured cap)) in *.
    assert (Ht : turn g = Z.of_nat (List.length ctxs))
      by (unfold g; rewrite run_all_turn; cbn; lia).
    destruct (run_world ctx g) as (Rh & Rv & Ri & Ra).
    rewrite Rh, Rv, Ri, Ra, Hh, Hv, Hi, Ha. clear Rh Rv Ri Ra Hh Hv Hi Ha.
    rewrite <- Ht.
    destruct (selected_step_cases g)
      as [[E ->] | [[E ->] | [[E ->] | [[E ->] | [E [-> | ->]]]]]];
      try (rewrite E; cbn; auto).
    all: assert (E' : 4 <= turn g) by lia;
      unfold health_after, visited_after, inventory_after, allies_after;
      repeat match goal with
             | |- context [?a <? ?b] => destruct (Z.ltb_spec a b); try lia
             end; auto.
Qed.

(** ** The closing prompt *)

Lemma generic_scene_prompt (action : string) (gm : VoiceGM) :
  endswith (fst (generic_scene action gm)) "What do you do?" = true.
Proof.
  apply endswith_spec.
  exists ("The world reacts to your action: " ++ action
          ++ ". You see the path ahead glowing with stars. ")%string.
  unfold generic_scene, ret, fst.
  rewrite !string_app_assoc. reflexivity.
Qed.

(** C1, as stated, fails on the tenth call of a session: the step is
    FinalScene and its narration ends with "What do you do?" like every other
    narration. *)
Lemma final_narration_counterexample :
  ~ narration_invariant_as_stated silence (session (repeat silence 9)).
Proof. intros H. vm_compute in H. discriminate H. Qed.

(** C1 (amended): the narration of every step, FinalScene included, ends with
    the exact text "What do you do?", and so does the narration every call to
    [run] returns, for every chat context and every state of the agent. *)
Theorem narration_ends_with_prompt :
  (forall (s : Step) (action : string) (gm : VoiceGM),
      endswith (fst (SceneCatalog s action gm)) "What do you do?" = true) /\
  (forall (ctx : RunContext) (gm : VoiceGM),
      endswith (fst (run ctx gm)) "What do you do?" = true).
Proof.
  assert (Hstep : forall s action gm,
             endswith (fst (SceneCatalog s action gm)) "What do you do?" = true).
  { intros s action gm.
    destruct s; try apply generic_scene_prompt; vm_compute; reflexivity. }
  split; [exact Hstep|].
  intros ctx gm. rewrite run_dispatch. apply Hstep.
Qed.

(** ** The schedule *)

(** C2, as stated, fails when the cap is set to 3: on the third call the turn
    index has reached the cap, and the step is ForestDiscovery. *)
Lemma cap_precedence_counterexample :
  ~ cap_precedence_as_stated (run_all [silence; silence] (reconfigured 3)).
Proof.
  intros H. vm_compute in H.
  assert (Hle : (3 ?= 3) = Gt -> False) by discriminate.
  discriminate (H Hle).
Qed.

(** The narration of that third call is the forest scene's. *)
Example cap_3_third_call :
  fst (run silence (run_all [silence; silence] (reconfigured 3)))
  = "You walk into the forest. You find a small piece of paper with a star mark on it. It might be part of the map. What do you do?".
Proof. reflexivity. Qed.

(** C2 (amended): [run] tests the numbered slots 1 to 4 first, then
    [turn >= max_turns], then falls back to the generic scene. So when the
    new turn index has reached [max_turns], the step is the numbered scene on
    turn indices 1 to 4 and FinalScene on every other index, and [run] plays
    that step. *)
Theorem cap_after_numbered_slots (ctx : RunContext) (gm : VoiceGM) :
  max_turns gm <= turn gm + 1 ->
  selected_step gm
  = match turn gm + 1 with
    | 1 => OpeningScene
    | 2 => AllyIntroduction
    | 3 => ForestDiscovery
    | 4 => WolfEncounter
    | _ => FinalScene
    end /\
  run ctx gm
  = SceneCatalog
      match turn gm + 1 with
      | 1 => OpeningScene
      | 2 => AllyIntroduction
      | 3 => ForestDiscovery
      | 4 => WolfEncounter
      | _ => FinalScene
      end (player_input ctx) (begin_turn ctx gm).
Proof.
  intros Hcap.
  assert (Hsel : selected_step gm
                 = match turn gm + 1 with
                   | 1 => OpeningScene
                   | 2 => AllyIntroduction
                   | 3 => ForestDiscovery
                   | 4 => WolfEncounter
                   | _ => FinalScene
                   end).
  { unfold selected_step.
    assert (Hc : turn gm + 1 = 1 \/ turn gm + 1 = 2 \/ turn gm + 1 = 3 \/
                 turn gm + 1 = 4 \/ (turn gm + 1 < 1 \/ 4 < turn gm + 1)) by lia.
    destruct Hc as [H | [H | [H | [H | H]]]]; try (rewrite H; reflexivity).
    rewrite TurnSelector_final by assumption.
    destruct (turn gm + 1) as [|p|p]; try reflexivity.
    destruct p as [[[p|p|]|[p|p|]|]|[[p|p|]|[p|p|]|]|]; try reflexivity; lia. }
  split; [exact Hsel|].
  rewrite run_dispatch, Hsel. reflexivity.
Qed.

(** C2, at the third call of an agent whose cap is 3 and at the tenth call of
    a session of the source. *)
Lemma cap_after_numbered_slots_witness :
  (max_turns (run_all [silence; silence] (reconfigured 3))
   <= turn (run_all [silence; silence] (reconfigured 3)) + 1) /\
  selected_step (run_all [silence; silence] (reconfigured 3)) = ForestDiscovery /\
  selected_step (session (repeat silence 9)) = FinalScene.
Proof.
  split; [vm_compute; discriminate|].
  split.
  - apply (cap_after_numbered_slots silence
             (run_all [silence; silence] (reconfigured 3))).
    vm_compute; discriminate.
  - apply (cap_after_numbered_slots silence (session (repeat silence 9))).
    vm_compute; discriminate.
Defined.

(** C3: with [max_turns = 10], the call that brings the turn index to 1, 2,
    3, 4 plays scene_1, scene_2, scene_3, scene_4, and the call that brings it
    to 5..9 plays generic_scene. The step is a function of the turn index
    alone: the same step is played for every chat context. *)
Theorem default_schedule (ctx : RunContext) (gm : VoiceGM) :
  max_turns gm = 10 ->
  1 <= turn gm + 1 <= 9 ->
  selected_step gm
  = match turn gm + 1 with
    | 1 => OpeningScene
    | 2 => AllyIntroduction
    | 3 => ForestDiscovery
    | 4 => WolfEncounter
    | _ => GenericReaction
    end /\
  run ctx gm
  = match turn gm + 1 with
    | 1 => scene_1
    | 2 => scene_2 (player_input ctx)
    | 3 => scene_3 (player_input ctx)
    | 4 => scene_4 (player_input ctx)
    | _ => generic_scene (player_input ctx)
    end (begin_turn ctx gm).
Proof.
  intros Hcap Ht. rewrite run_dispatch. unfold selected_step. rewrite Hcap.
  assert (Hc : turn gm + 1 = 1 \/ turn gm + 1 = 2 \/ turn gm + 1 = 3 \/
               turn gm + 1 = 4 \/ turn gm + 1 = 5 \/ turn gm + 1 = 6 \/
               turn gm + 1 = 7 \/ turn gm + 1 = 8 \/ turn gm + 1 = 9) by lia.
  repeat (destruct Hc as [H | Hc]; [rewrite H; split; reflexivity|]).
  rewrite Hc; split; reflexivity.
Qed.

(** C3, on the sixth call of a session: whatever the player says, the generic
    scene is played. *)
Lemma default_schedule_witness :
  max_turns (session (repeat silence 5)) = 10 /\
  1 <= turn (session (repeat silence 5)) + 1 <= 9 /\
  selected_step (session (repeat silence 5)) = GenericReaction /\
  run (says "I open the door") (session (repeat silence 5))
  = generic_scene "I open the door"
      (begin_turn (says "I open the door") (session (repeat silence 5))).
Proof.
  split; [reflexivity|].
  split; [vm_compute; split; discriminate|].
  apply (default_schedule (says "I open the door") (session (repeat silence 5))).
  - reflexivity.
  - vm_compute; split; discriminate.
Defined.

(** ** The action log *)

(** C4: a call whose player input is not empty appends exactly one entry to
    [past_actions], the input cut to its first 80 characters (an initial
    segment of the input of length [min 80 (length input)]); a call whose
    input is empty leaves [past_actions] as it was. *)
Theorem past_actions_logging (ctx : RunContext) (gm : VoiceGM) :
  match player_input ctx with
  | EmptyString =>
      past_actions (memory (snd (run ctx gm))) = past_actions (memory gm)
  | String _ _ =>
      past_actions (memory (snd (run ctx gm)))
      = (past_actions (memory gm) ++ [substring 0 80 (player_input ctx)])%list /\
      String.length (substring 0 80 (player_input ctx))
      = Nat.min 80 (String.length (player_input ctx)) /\
      (String.length (substring 0 80 (player_input ctx)) <= 80)%nat /\
      (exists rest,
          player_input ctx = (substring 0 80 (player_input ctx) ++ rest)%string)
  end.
Proof.
  pose proof (run_past_actions ctx gm) as Hlog.
  pose proof (substring_prefix_length 80 (player_input ctx)) as Hlen.
  pose proof (substring_prefix_of 80 (player_input ctx)) as Hpre.
  destruct (player_input ctx) as [|c u] eqn:E.
  - cbn [truthy] in Hlog. now rewrite app_nil_r in Hlog.
  - cbn [truthy] in Hlog. repeat split; try assumption.
    rewrite Hlen. apply Nat.le_min_l.
Qed.

(** ** The turn counter *)

(** C5: a call adds exactly 1 to [turn], so the counter never goes down; two
    calls in a row each return a narration and add 2 in total, and the second
    call does not leave the agent as the first left it. *)
Theorem turn_counter_advances (ctx1 ctx2 : RunContext) (gm : VoiceGM) :
  turn (snd (run ctx1 gm)) = turn gm + 1 /\
  turn gm < turn (snd (run ctx1 gm)) /\
  (exists (n1 n2 : string) (gm1 gm2 : VoiceGM),
      run ctx1 gm = (n1, gm1) /\ run ctx2 gm1 = (n2, gm2) /\
      turn gm2 = turn gm + 2) /\
  snd (run ctx2 (snd (run ctx1 gm))) <> snd (run ctx1 gm).
Proof.
  split; [apply run_turn|].
  split; [rewrite run_turn; lia|].
  split.
  - exists (fst (run ctx1 gm)), (fst (run ctx2 (snd (run ctx1 gm)))),
      (snd (run ctx1 gm)), (snd (run ctx2 (snd (run ctx1 gm)))).
    repeat split.
    + now destruct (run ctx1 gm).
    + now destruct (run ctx2 (snd (run ctx1 gm))).
    + rewrite !run_turn. lia.
  - intros Heq. apply (f_equal turn) in Heq. rewrite !run_turn in Heq. lia.
Qed.

(** ** The player's name *)

(** C9: [__init__] sets the name to "Arin"; a call to [run] leaves the name of
    any agent as it was, and so does any sequence of calls, so the name is
    "Arin" throughout a session. *)
Theorem name_is_immutable (ctx : RunContext) (ctxs : list RunContext) (gm : VoiceGM) :
  name (memory VoiceGM_init) = "Arin"%string /\
  name (memory (snd (run ctx gm))) = name (memory gm) /\
  name (memory (run_all ctxs gm)) = name (memory gm) /\
  name (memory (session ctxs)) = "Arin"%string.
Proof.
  split; [reflexivity|].
  split; [apply run_name|].
  split; [apply run_all_name|].
  unfold session. now rewrite run_all_name.
Qed.

(** ** Append-only sequences *)

Lemma run_all_app pre post gm :
  run_all (pre ++ post) gm = run_all post (run_all pre gm).
Proof. unfold run_all. apply fold_left_app. Qed.

(** C6: a sequence of calls only adds entries at the end of [visited_places],
    [inventory], [allies] and [past_actions], from any state of the agent; so
    along a session every earlier value of a sequence is an initial segment of
    every later one and the lengths never go down. In a session of the source
    [visited_places] never holds more than 2 entries, [inventory] never more
    than 1 and [allies] never more than 1. *)
Theorem sequences_append_only (pre post : list RunContext) (gm : VoiceGM) :
  (extends (visited_places (memory gm))
           (visited_places (memory (run_all post gm))) /\
   extends (inventory (memory gm)) (inventory (memory (run_all post gm))) /\
   extends (allies (memory gm)) (allies (memory (run_all post gm))) /\
   extends (past_actions (memory gm))
           (past_actions (memory (run_all post gm)))) /\
  (extends (visited_places (memory (session pre)))
           (visited_places (memory (session (pre ++ post)))) /\
   extends (inventory (memory (session pre)))
           (inventory (memory (session (pre ++ post)))) /\
   extends (allies (memory (session pre)))
           (allies (memory (session (pre ++ post)))) /\
   extends (past_actions (memory (session pre)))
           (past_actions (memory (session (pre ++ post))))) /\
  (List.length (visited_places (memory (session pre)))
   <= List.length (visited_places (memory (session (pre ++ post)))) /\
   List.length (inventory (memory (session pre)))
   <= List.length (inventory (memory (session (pre ++ post)))) /\
   List.length (allies (memory (session pre)))
   <= List.length (allies (memory (session (pre ++ post)))) /\
   List.length (past_actions (memory (session pre)))
   <= List.length (past_actions (memory (session (pre ++ post)))))%nat /\
  (List.length (visited_places (memory (session pre))) <= 2 /\
   List.length (inventory (memory (session pre))) <= 1 /\
   List.length (allies (memory (session pre))) <= 1)%nat.
Proof.
  split; [apply run_all_extends|].
  assert (Hext := run_all_extends post (session pre)).
  unfold session in *. rewrite run_all_app.
  split; [exact Hext|].
  destruct Hext as (Hv & Hi & Ha & Hp).
  split; [auto using extends_length|].
  destruct (scripted_world 10 pre) as (_ & Ev & Ei & Ea).
  change (reconfigured 10) with VoiceGM_init in *.
  rewrite Ev, Ei, Ea.
  unfold visited_after, inventory_after, allies_after.
  repeat match goal with
         | |- context [?a <? ?b] => destruct (a <? b)
         end; cbn; lia.
Qed.

(** ** Health *)

(** C7: scene_4 takes 10 from [health], whatever the health is (nothing stops
    it at 0), and changes nothing else of the agent. In a session the fourth
    call plays it, for every player input: health is 100 before that call and
    90 after it. *)
Theorem wolf_encounter_health
    (action : string) (gm : VoiceGM) (c1 c2 c3 c4 : RunContext) :
  health (memory (snd (scene_4 action gm))) = health (memory gm) - 10 /\
  snd (scene_4 action gm)
  = set_memory (set_health (health (memory gm) - 10) (memory gm)) gm /\
  (name (memory (snd (scene_4 action gm))) = name (memory gm) /\
   inventory (memory (snd (scene_4 action gm))) = inventory (memory gm) /\
   allies (memory (snd (scene_4 action gm))) = allies (memory gm) /\
   visited_places (memory (snd (scene_4 action gm))) = visited_places (memory gm) /\
   past_actions (memory (snd (scene_4 action gm))) = past_actions (memory gm) /\
   turn (snd (scene_4 action gm)) = turn gm /\
   max_turns (snd (scene_4 action gm)) = max_turns gm) /\
  selected_step (session [c1; c2; c3]) = WolfEncounter /\
  health (memory (session [c1; c2; c3])) = 100 /\
  health (memory (session [c1; c2; c3; c4])) = 90.
Proof.
  split; [reflexivity|]. split; [reflexivity|].
  split; [repeat split|].
  split.
  - unfold selected_step, session.
    now rewrite run_all_turn, run_all_max_turns.
  - split.
    + now destruct (scripted_world 10 [c1; c2; c3]) as (Hh & _).
    + now destruct (scripted_world 10 [c1; c2; c3; c4]) as (Hh & _).
Qed.

(** C10: in a session of the source, health is 100 after fewer than 4 calls
    and 90 after 4 calls or more; it is never below 90. *)
Theorem session_health (ctxs : list RunContext) :
  health (memory (session ctxs))
  = (if (List.length ctxs <? 4)%nat then 100 else 90) /\
  90 <= health (memory (session ctxs)).
Proof.
  destruct (scripted_world 10 ctxs) as (Hh & _).
  change (run_all ctxs (reconfigured 10)) with (session ctxs) in Hh.
  rewrite Hh. unfold health_after.
  destruct (Nat.ltb_spec (List.length ctxs) 4);
    destruct (Z.ltb_spec (Z.of_nat (List.length ctxs)) 4); try lia.
Qed.

(** ** The end of the session *)

(** Past the numbered slots, a call that reaches the cap plays the final
    scene: the narration is fixed and only the bookkeeping touches the agent. *)
Lemma run_at_cap (ctx : RunContext) (gm : VoiceGM) :
  4 <= turn gm -> max_turns gm <= turn gm + 1 ->
  selected_step gm = FinalScene /\
  run ctx gm
  = ("You reach a stone door with a glowing star mark. Fenrix nods at you. The door opens slowly. A new quest begins. What do you do?"%string,
     begin_turn ctx gm).
Proof.
  intros Ht Hcap.
  assert (Hsel : selected_step gm = FinalScene)
    by (apply TurnSelector_final; lia).
  split; [exact Hsel|]. now rewrite run_dispatch, Hsel.
Qed.

(** C8, as stated, fails when the cap is set to 3: after three calls the
    counter has reached the cap, and the fourth call plays scene_4, which
    returns the wolf narration and takes 10 from health. *)
Lemma saturation_counterexample :
  ~ saturation_as_stated silence
      (run_all [silence; silence; silence] (reconfigured 3)).
Proof.
  intros H. destruct H as [Hn _].
  - vm_compute. discriminate.
  - vm_compute in Hn. discriminate Hn.
Qed.

(** What that fourth call does instead. *)
Example cap_3_fourth_call :
  max_turns (run_all [silence; silence; silence] (reconfigured 3)) = 3 /\
  turn (run_all [silence; silence; silence] (reconfigured 3)) = 3 /\
  fst (run silence (run_all [silence; silence; silence] (reconfigured 3)))
  = fst (scene_4 "" VoiceGM_init) /\
  health (memory (run_all [silence; silence; silence; silence] (reconfigured 3)))
  = 90.
Proof. repeat split. Qed.

(** C8 (amended): once the four numbered slots are past ([turn] at least 4
    before the call) and the new turn index has reached [max_turns], that call
    and every call after it, whatever calls [later] come in between, play
    FinalScene: the call returns the final narration, adds 1 to the counter,
    leaves the cap, and changes the memory only by the entry it may append to
    [past_actions]. In a session of the source ([max_turns = 10]) this is the
    tenth call and every call after it. No call is refused. *)
Theorem final_scene_saturates
    (later : list RunContext) (ctx : RunContext) (gm : VoiceGM) :
  4 <= turn gm ->
  max_turns gm <= turn gm + 1 ->
  (selected_step (run_all later gm) = FinalScene /\
   fst (run ctx (run_all later gm))
   = "You reach a stone door with a glowing star mark. Fenrix nods at you. The door opens slowly. A new quest begins. What do you do?"%string /\
   fst (run ctx (run_all later gm)) = fst (final_scene (run_all later gm)) /\
   memory (snd (run ctx (run_all later gm)))
   = (if truthy (player_input ctx)
      then set_past_actions
             (past_actions (memory (run_all later gm))
              ++ [substring 0 80 (player_input ctx)])%list
             (memory (run_all later gm))
      else memory (run_all later gm)) /\
   turn (snd (run ctx (run_all later gm))) = turn (run_all later gm) + 1 /\
   max_turns (snd (run ctx (run_all later gm))) = max_turns gm) /\
  (forall ctxs : list RunContext,
      (9 <= List.length ctxs)%nat ->
      selected_step (session ctxs) = FinalScene /\
      fst (run ctx (session ctxs))
      = "You reach a stone door with a glowing star mark. Fenrix nods at you. The door opens slowly. A new quest begins. What do you do?"%string /\
      fst (run ctx (session ctxs)) = fst (final_scene (session ctxs)) /\
      memory (snd (run ctx (session ctxs)))
      = (if truthy (player_input ctx)
         then set_past_actions
                (past_actions (memory (session ctxs))
                 ++ [substring 0 80 (player_input ctx)])%list
                (memory (session ctxs))
         else memory (session ctxs)) /\
      turn (snd (run ctx (session ctxs))) = turn (session ctxs) + 1 /\
      max_turns (snd (run ctx (session ctxs))) = 10).
Proof.
  intros Hslots Hcap.
  assert (Hfinal : forall g,
             4 <= turn g -> max_turns g <= turn g + 1 ->
             selected_step g = FinalScene /\
             fst (run ctx g)
             = "You reach a stone door with a glowing star mark. Fenrix nods at you. The door opens slowly. A new quest begins. What do you do?"%string /\
             fst (run ctx g) = fst (final_scene g) /\
             memory (snd (run ctx g))
             = (if truthy (player_input ctx)
                then set_past_actions
                       (past_actions (memory g)
                        ++ [substring 0 80 (player_input ctx)])%list
                       (memory g)
                else memory g) /\
             turn (snd (run ctx g)) = turn g + 1 /\
             max_turns (snd (run ctx g)) = max_turns g).
  { intros g Ht Hc.
    destruct (run_at_cap ctx g Ht Hc) as (Hsel & Hrun).
    rewrite Hrun. cbn [fst snd].
    rewrite begin_turn_memory, begin_turn_turn, begin_turn_max_turns.
    repeat split; auto. }
  split.
  - destruct (Hfinal (run_all later gm)) as (H1 & H2 & H3 & H4 & H5 & H6).
    + rewrite run_all_turn. lia.
    + rewrite run_all_turn, run_all_max_turns. lia.
    + rewrite run_all_max_turns in H6. repeat split; assumption.
  - intros ctxs Hlen.
    assert (Ht : turn (session ctxs) = Z.of_nat (List.length ctxs))
      by (unfold session; rewrite run_all_turn; cbn; lia).
    assert (Hc : max_turns (session ctxs) = 10)
      by (unfold session; now rewrite run_all_max_turns).
    destruct (Hfinal (session ctxs)) as (H1 & H2 & H3 & H4 & H5 & H6);
      try lia.
    rewrite Hc in H6. repeat split; assumption.
Qed.

(** C8, on an agent whose cap is 3: after four calls the slots are past, and
    the sixth call returns the final narration; and at the eleventh call of a
    session of the source. *)
Lemma final_scene_saturates_witness :
  4 <= turn (run_all (repeat silence 4) (reconfigured 3)) /\
  max_turns (run_all (repeat silence 4) (reconfigured 3))
  <= turn (run_all (repeat silence 4) (reconfigured 3)) + 1 /\
  fst (run (says "I knock again")
         (run_all [says "I wait"] (run_all (repeat silence 4) (reconfigured 3))))
  = "You reach a stone door with a glowing star mark. Fenrix nods at you. The door opens slowly. A new quest begins. What do you do?"%string /\
  fst (run (says "I knock again") (session (repeat silence 10)))
  = "You reach a stone door with a glowing star mark. Fenrix nods at you. The door opens slowly. A new quest begins. What do you do?"%string.
Proof.
  split; [vm_compute; discriminate|].
  split; [vm_compute; discriminate|].
  destruct (final_scene_saturates [says "I wait"] (says "I knock again")
              (run_all (repeat silence 4) (reconfigured 3)))
    as [(_ & Hnarr & _) Hsession].
  - vm_compute; discriminate.
  - vm_compute; discriminate.
  - split; [exact Hnarr|].
    apply (Hsession (repeat silence 10)). cbn; lia.
Defined.

(** * Further properties of [run] and of the scenes *)

(** ** Records are their fields *)

Lemma PlayerMemory_ext (m m' : PlayerMemory) :
  name m = name m' -> health m = health m' -> inventory m = inventory m' ->
  allies m = allies m' -> visited_places m = visited_places m' ->
  past_actions m = past_actions m' -> m = m'.
Proof. destruct m, m'; cbn; congruence. Qed.

Lemma VoiceGM_ext (g g' : VoiceGM) :
  memory g = memory g' -> turn g = turn g' -> max_turns g = max_turns g' ->
  g = g'.
Proof. destruct g, g'; cbn; congruence. Qed.

(** ** What [run] reads of the chat context *)

(** [run] reads its context through [player_input] only. *)
Lemma run_player_input (ctx ctx' : RunContext) (gm : VoiceGM) :
  player_input ctx = player_input ctx' -> run ctx gm = run ctx' gm.
Proof. intros H. unfold run. now rewrite H. Qed.

(** X1: of the chat history [run] uses the text of the last message only:
    a call with the history [hist ++ [m]] does what a call with the single
    message [m] does, and a call with no message at all does what a call with
    one empty message does. *)
Theorem only_last_message_counts
    (hist : list ChatMessage) (m : ChatMessage) (gm : VoiceGM) :
  player_input {| messages := hist ++ [m] |} = content m /\
  run {| messages := hist ++ [m] |} gm = run (says (content m)) gm /\
  run silence gm = run (says "") gm.
Proof.
  assert (H : player_input {| messages := hist ++ [m] |} = content m).
  { unfold player_input. cbn [messages]. rewrite map_app. cbn [map].
    apply last_last. }
  split; [exact H|].
  split; apply run_player_input; [rewrite H|]; reflexivity.
Qed.

(** ** The action log of a sequence of calls *)

Lemma logged_snoc (ctxs : list RunContext) (ctx : RunContext) :
  logged (ctxs ++ [ctx])
  = (logged ctxs
     ++ (if truthy (player_input ctx)
         then [substring 0 80 (player_input ctx)] else []))%list.
Proof.
  unfold logged. rewrite map_app, filter_app, map_app. cbn [map filter].
  now destruct (truthy (player_input ctx)).
Qed.

Lemma run_all_past_actions (ctxs : list RunContext) (gm : VoiceGM) :
  past_actions (memory (run_all ctxs gm))
  = (past_actions (memory gm) ++ logged ctxs)%list.
Proof.
  induction ctxs as [|ctx ctxs IH] using rev_ind.
  - cbn. now rewrite app_nil_r.
  - now rewrite run_all_snoc, run_past_actions, IH, logged_snoc, app_assoc.
Qed.

Lemma logged_length (ctxs : list RunContext) :
  (List.length (logged ctxs) <= List.length ctxs)%nat.
Proof.
  unfold logged. rewrite length_map.
  etransitivity; [apply filter_length_le|]. now rewrite length_map.
Qed.

Lemma truncated_input_bounds (u : string) :
  truthy u = true ->
  substring 0 80 u <> ""%string /\ (String.length (substring 0 80 u) <= 80)%nat.
Proof.
  intros Hu. split.
  - destruct u; [discriminate Hu | cbn; discriminate].
  - rewrite substring_prefix_length. apply Nat.le_min_l.
Qed.

Lemma logged_entries (ctxs : list RunContext) :
  Forall (fun e => e <> ""%string /\ (String.length e <= 80)%nat) (logged ctxs).
Proof.
  unfold logged. apply Forall_map, Forall_forall.
  intros u Hu. apply filter_In in Hu as [_ Hu].
  now apply truncated_input_bounds.
Qed.

(** X2: from any state, after a sequence of calls [past_actions] is what it
    was followed by the first 80 characters of each non-empty player input,
    one entry per such call and in the order of the calls; it grows by at most
    one entry per call. *)
Theorem log_of_calls (ctxs : list RunContext) (gm : VoiceGM) :
  past_actions (memory (run_all ctxs gm))
  = (past_actions (memory gm)
     ++ map (substring 0 80) (filter truthy (map player_input ctxs)))%list /\
  (List.length (past_actions (memory (run_all ctxs gm)))
   <= List.length (past_actions (memory gm)) + List.length ctxs)%nat.
Proof.
  pose proof (run_all_past_actions ctxs gm) as H. unfold logged in H.
  split; [exact H|].
  rewrite H, length_app.
  pose proof (logged_length ctxs) as Hl. unfold logged in Hl. lia.
Qed.

(** X3: [run] keeps the log well formed: if no entry of [past_actions] is
    empty or longer than 80 characters, the same holds after any sequence of
    calls. *)
Theorem log_entries_bounded (ctxs : list RunContext) (gm : VoiceGM) :
  Forall (fun e => e <> ""%string /\ (String.length e <= 80)%nat)
         (past_actions (memory gm)) ->
  Forall (fun e => e <> ""%string /\ (String.length e <= 80)%nat)
         (past_actions (memory (run_all ctxs gm))).
Proof.
  intros Hgm. rewrite run_all_past_actions.
  apply Forall_app. split; [exact Hgm | apply logged_entries].
Qed.

(** X3, on a fresh agent after three calls. *)
Lemma log_entries_bounded_witness :
  Forall (fun e => e <> ""%string /\ (String.length e <= 80)%nat)
         (past_actions (memory VoiceGM_init)) /\
  Forall (fun e => e <> ""%string /\ (String.length e <= 80)%nat)
         (past_actions
            (memory (run_all [says "I look around"; silence; says "I follow him"]
                       VoiceGM_init))).
Proof.
  split; [constructor|].
  apply (log_entries_bounded
           [says "I look around"; silence; says "I follow him"] VoiceGM_init).
  constructor.
Defined.

(** ** What the narration depends on *)

Lemma string_app_inv_head (p a b : string) :
  (p ++ a = p ++ b)%string -> a = b.
Proof.
  induction p as [|ch p IH]; cbn; intros H; [exact H|].
  injection H as H. auto.
Qed.

Lemma string_app_inv_tail (a b s : string) :
  (a ++ s = b ++ s)%string -> a = b.
Proof.
  revert b; induction a as [|ch a IH]; intros [|ch' b] H; cbn in H.
  - reflexivity.
  - apply (f_equal String.length) in H. cbn in H.
    rewrite string_app_length in H. lia.
  - apply (f_equal String.length) in H. cbn in H.
    rewrite string_app_length in H. lia.
  - injection H as Hc H. subst ch'. f_equal. now apply IH.
Qed.

(** No scene reads the agent to build its narration. *)
Lemma SceneCatalog_narration_state s action gm gm' :
  fst (SceneCatalog s action gm) = fst (SceneCatalog s action gm').
Proof. now destruct s. Qed.

(** Only the generic scene reads the player's action. *)
Lemma SceneCatalog_narration_action s action action' gm :
  s <> GenericReaction ->
  fst (SceneCatalog s action gm) = fst (SceneCatalog s action' gm).
Proof. destruct s; intros Hs; try reflexivity. now elim Hs. Qed.

(** The final and the generic scene leave the agent as it is. *)
Lemma SceneCatalog_idle s action gm :
  s = FinalScene \/ s = GenericReaction -> snd (SceneCatalog s action gm) = gm.
Proof. now intros [-> | ->]. Qed.

(** X4: the narration a call returns is decided by the turn counter, the cap
    and the player input: two agents with the same [turn] and [max_turns]
    return the same narration for the same context, whatever their memory
    holds (name, health, inventory, allies, places and past actions are never
    read). *)
Theorem narration_ignores_memory (ctx : RunContext) (gm gm' : VoiceGM) :
  turn gm = turn gm' -> max_turns gm = max_turns gm' ->
  fst (run ctx gm) = fst (run ctx gm').
Proof.
  intros Ht Hc. rewrite !run_dispatch. unfold selected_step.
  rewrite Ht, Hc. apply SceneCatalog_narration_state.
Qed.

(** X4, on the sixth call of two sessions that differ in what the player said
    before. *)
Lemma narration_ignores_memory_witness :
  turn (session (repeat silence 5)) = turn (session (repeat (says "I wait") 5)) /\
  max_turns (session (repeat silence 5))
  = max_turns (session (repeat (says "I wait") 5)) /\
  memory (session (repeat silence 5))
  <> memory (session (repeat (says "I wait") 5)) /\
  fst (run (says "I go on") (session (repeat silence 5)))
  = fst (run (says "I go on") (session (repeat (says "I wait") 5))).
Proof.
  split; [reflexivity|]. split; [reflexivity|].
  split; [vm_compute; discriminate|].
  apply (narration_ignores_memory (says "I go on")
           (session (repeat silence 5)) (session (repeat (says "I wait") 5)));
    reflexivity.
Defined.

(** X5: on the four scripted turns and once the cap is reached the narration
    does not depend on what the player said: when [turn] is 0, 1, 2 or 3
    before the call, or the new turn index is at least [max_turns], every
    context gets the same narration. *)
Theorem scripted_narration_ignores_input (ctx ctx' : RunContext) (gm : VoiceGM) :
  0 <= turn gm <= 3 \/ max_turns gm <= turn gm + 1 ->
  fst (run ctx gm) = fst (run ctx' gm).
Proof.
  intros H. rewrite !run_dispatch.
  assert (Hs : selected_step gm <> GenericReaction).
  { destruct (selected_step_cases gm)
      as [[_ E] | [[_ E] | [[_ E] | [[_ E] | [Ht [E | E]]]]]];
      rewrite E; try discriminate.
    exfalso. unfold selected_step in E.
    rewrite TurnSelector_final in E by lia. discriminate E. }
  rewrite (SceneCatalog_narration_action _ _ (player_input ctx') _ Hs).
  apply SceneCatalog_narration_state.
Qed.

(** X5, on the second call of a session. *)
Lemma scripted_narration_ignores_input_witness :
  (0 <= turn (session [silence]) <= 3
   \/ max_turns (session [silence]) <= turn (session [silence]) + 1) /\
  fst (run (says "I draw my sword") (session [silence]))
  = fst (run silence (session [silence])).
Proof.
  split; [left; vm_compute; split; discriminate|].
  apply (scripted_narration_ignores_input (says "I draw my sword") silence
           (session [silence])).
  left; vm_compute; split; discriminate.
Defined.

(** X6: between the scripted turns and the cap ([turn] at least 4 before the
    call, new turn index below [max_turns]) a call returns the generic
    narration built around the whole player input, not around its first 80
    characters, so the narration has 93 characters more than the input; the
    call changes the agent by the counter and the log only. *)
Theorem generic_scene_echoes_input (ctx : RunContext) (gm : VoiceGM) :
  4 <= turn gm -> turn gm + 1 < max_turns gm ->
  run ctx gm
  = (("The world reacts to your action: " ++ player_input ctx
      ++ ". You see the path ahead glowing with stars. What do you do?")%string,
     begin_turn ctx gm) /\
  String.length (fst (run ctx gm))
  = (String.length (player_input ctx) + 93)%nat.
Proof.
  intros Ht Hcap.
  assert (Hsel : selected_step gm = GenericReaction)
    by (apply TurnSelector_generic; lia).
  assert (Hrun : run ctx gm
                 = (("The world reacts to your action: " ++ player_input ctx
                     ++ ". You see the path ahead glowing with stars. What do you do?")%string,
                    begin_turn ctx gm))
    by (now rewrite run_dispatch, Hsel).
  split; [exact Hrun|].
  rewrite Hrun. cbn [fst]. rewrite !string_app_length. cbn. lia.
Qed.

(** X6, on the sixth call of a session with an input of 100 characters. *)
Lemma generic_scene_echoes_input_witness :
  4 <= turn (session (repeat silence 5)) /\
  turn (session (repeat silence 5)) + 1 < max_turns (session (repeat silence 5)) /\
  String.length
    (fst (run (says (string_of_list_ascii (repeat "a"%char 100)))
            (session (repeat silence 5))))
  = (String.length
       (player_input (says (string_of_list_ascii (repeat "a"%char 100)))) + 93)%nat.
Proof.
  split; [vm_compute; discriminate|].
  split; [vm_compute; reflexivity|].
  apply (generic_scene_echoes_input
           (says (string_of_list_ascii (repeat "a"%char 100)))
           (session (repeat silence 5))).
  - vm_compute; discriminate.
  - vm_compute; reflexivity.
Defined.

(** X7: on a generic turn the narration determines the player input: two
    contexts that get the same narration have the same input. *)
Theorem generic_narration_injective (ctx ctx' : RunContext) (gm : VoiceGM) :
  4 <= turn gm -> turn gm + 1 < max_turns gm ->
  fst (run ctx gm) = fst (run ctx' gm) ->
  player_input ctx = player_input ctx'.
Proof.
  intros Ht Hcap Heq.
  assert (Hsel : selected_step gm = GenericReaction)
    by (apply TurnSelector_generic; lia).
  rewrite !run_dispatch, Hsel in Heq. cbn [SceneCatalog] in Heq.
  unfold generic_scene, ret in Heq. cbn [fst] in Heq.
  apply string_app_inv_head in Heq.
  now apply string_app_inv_tail in Heq.
Qed.

(** X7, on the sixth call of a session. *)
Lemma generic_narration_injective_witness :
  4 <= turn (session (repeat silence 5)) /\
  turn (session (repeat silence 5)) + 1 < max_turns (session (repeat silence 5)) /\
  player_input {| messages := [ {| content := "hello" |}; {| content := "I run" |} ] |}
  = player_input (says "I run").
Proof.
  split; [vm_compute; discriminate|].
  split; [vm_compute; reflexivity|].
  apply (generic_narration_injective
           {| messages := [ {| content := "hello" |}; {| content := "I run" |} ] |}
           (says "I run") (session (repeat silence 5))).
  - vm_compute; discriminate.
  - vm_compute; reflexivity.
  - reflexivity.
Defined.

(** ** The memory, call by call *)

(** X8: what a call does to the world is decided by the turn counter alone,
    from any state and for any cap: health loses 10 when [turn] was 3 and is
    kept otherwise (also when that makes it negative); "Tavern" is added to
    the places when [turn] was 0 and "Forest" when it was 2; "Map Scrap" is
    added to the inventory when [turn] was 2; "Fenrix" joins the allies when
    [turn] was 1. Any other call leaves these four fields as they are. *)
Theorem world_change_by_turn (ctx : RunContext) (gm : VoiceGM) :
  health (memory (snd (run ctx gm)))
  = (if turn gm =? 3 then health (memory gm) - 10 else health (memory gm)) /\
  visited_places (memory (snd (run ctx gm)))
  = (if turn gm =? 0 then visited_places (memory gm) ++ ["Tavern"]
     else if turn gm =? 2 then visited_places (memory gm) ++ ["Forest"]
     else visited_places (memory gm))%list /\
  inventory (memory (snd (run ctx gm)))
  = (if turn gm =? 2 then inventory (memory gm) ++ ["Map Scrap"]
     else inventory (memory gm))%list /\
  allies (memory (snd (run ctx gm)))
  = (if turn gm =? 1 then allies (memory gm) ++ ["Fenrix"]
     else allies (memory gm))%list.
Proof.
  destruct (run_world ctx gm) as (Rh & Rv & Ri & Ra).
  rewrite Rh, Rv, Ri, Ra. clear Rh Rv Ri Ra.
  destruct (selected_step_cases gm)
    as [[E ->] | [[E ->] | [[E ->] | [[E ->] | [E [-> | ->]]]]]];
    try (rewrite E; cbn; auto).
  all: destruct (Z.eqb_spec (turn gm) 0); try lia;
    destruct (Z.eqb_spec (turn gm) 1); try lia;
    destruct (Z.eqb_spec (turn gm) 2); try lia;
    destruct (Z.eqb_spec (turn gm) 3); try lia; auto.
Qed.

(** Two agents with the same counter take steps that treat the world alike. *)
Ltac same_step gm gm' :=
  let E := fresh "E" in
  let E' := fresh "E" in
  destruct (selected_step_cases gm)
    as [[E ->] | [[E ->] | [[E ->] | [[E ->] | [E [-> | ->]]]]]];
  destruct (selected_step_cases gm')
    as [[E' ->] | [[E' ->] | [[E' ->] | [[E' ->] | [E' [-> | ->]]]]]];
  try reflexivity; lia.

(** One call from two agents that agree on memory and counter. *)
Lemma run_memory_congr (ctx : RunContext) (gm gm' : VoiceGM) :
  memory gm = memory gm' -> turn gm = turn gm' ->
  memory (snd (run ctx gm)) = memory (snd (run ctx gm')).
Proof.
  intros Hm Ht.
  destruct (run_world ctx gm) as (Rh & Rv & Ri & Ra).
  destruct (run_world ctx gm') as (Rh' & Rv' & Ri' & Ra').
  apply PlayerMemory_ext.
  - now rewrite !run_name, Hm.
  - rewrite Rh, Rh', Hm.
    same_step gm gm'.
  - rewrite Ri, Ri', Hm.
    same_step gm gm'.
  - rewrite Ra, Ra', Hm.
    same_step gm gm'.
  - rewrite Rv, Rv', Hm.
    same_step gm gm'.
  - now rewrite !run_past_actions, Hm.
Qed.

(** X9: [max_turns] decides which narration is returned and nothing else:
    two agents with the same memory and the same counter still have the same
    memory and the same counter after the same sequence of calls, whatever
    their caps are. *)
Theorem memory_independent_of_cap (ctxs : list RunContext) (gm gm' : VoiceGM) :
  memory gm = memory gm' -> turn gm = turn gm' ->
  memory (run_all ctxs gm) = memory (run_all ctxs gm') /\
  turn (run_all ctxs gm) = turn (run_all ctxs gm').
Proof.
  intros Hm Ht.
  induction ctxs as [|ctx ctxs [IHm IHt]] using rev_ind.
  - now split.
  - rewrite !run_all_snoc. split.
    + now apply run_memory_congr.
    + rewrite !run_turn. now rewrite IHt.
Qed.

(** X9, on a session of the source and one whose cap is 3. *)
Lemma memory_independent_of_cap_witness :
  memory VoiceGM_init = memory (reconfigured 3) /\
  turn VoiceGM_init = turn (reconfigured 3) /\
  memory (run_all (repeat (says "I walk on") 12) VoiceGM_init)
  = memory (run_all (repeat (says "I walk on") 12) (reconfigured 3)).
Proof.
  split; [reflexivity|]. split; [reflexivity|].
  apply (memory_independent_of_cap (repeat (says "I walk on") 12)
           VoiceGM_init (reconfigured 3)); reflexivity.
Defined.

(** ** A session in closed form *)

(** X10: the agent after the calls [ctxs] of a session of the source is a
    function of the number of calls and of the inputs: the counter is the
    number of calls, the cap is 10, the name is "Arin", health is 100 before
    the fourth call and 90 from then on, the places are "Tavern" from the
    first call and "Forest" from the third, the inventory holds "Map Scrap"
    from the third call, the allies hold "Fenrix" from the second, and the log
    holds the first 80 characters of each non-empty input. *)
Theorem session_closed_form (ctxs : list RunContext) :
  session ctxs
  = {| memory :=
         {| name := "Arin";
            health := if Z.of_nat (List.length ctxs) <? 4 then 100 else 90;
            inventory :=
              if Z.of_nat (List.length ctxs) <? 3 then [] else ["Map Scrap"];
            allies :=
              if Z.of_nat (List.length ctxs) <? 2 then [] else ["Fenrix"];
            visited_places :=
              if Z.of_nat (List.length ctxs) <? 1 then []
              else if Z.of_nat (List.length ctxs) <? 3 then ["Tavern"]
              else ["Tavern"; "Forest"];
            past_actions :=
              map (substring 0 80) (filter truthy (map player_input ctxs)) |};
       turn := Z.of_nat (List.length ctxs);
       max_turns := 10 |}.
Proof.
  destruct (scripted_world 10 ctxs) as (Hh & Hv & Hi & Ha).
  change (run_all ctxs (reconfigured 10)) with (session ctxs) in *.
  apply VoiceGM_ext; cbn [memory turn max_turns].
  - apply PlayerMemory_ext;
      cbn [name health inventory allies visited_places past_actions].
    + unfold session. now rewrite run_all_name.
    + exact Hh.
    + exact Hi.
    + exact Ha.
    + exact Hv.
    + unfold session. now rewrite run_all_past_actions.
  - unfold session. now rewrite run_all_turn.
  - unfold session. now rewrite run_all_max_turns.
Qed.
